(** * Black-Scholes pricer and iron-condor builder: a shallow embedding

    The Python sources [prices.py] and [ironCondor.py] are embedded as Rocq
    functions, at three levels of detail.

    - The functions under their source names compute in exact real
      arithmetic ([R]): Python's control flow, order of evaluation and the
      exceptions the arithmetic raises on reals are kept ([ZeroDivisionError]
      for a division by zero, [ValueError] for [math.sqrt] and [math.log]
      outside their domain); rounding, underflow, infinities and NaN are not.
    - [Ovf] is the pricer with the [OverflowError] of [math.exp] as well.
    - [B64] is the iron condor on binary64 floats, exact to the last bit.

    A theorem about the first two levels is a statement in exact real
    arithmetic; where binary64 rounding changes the answer, [B64] shows it. *)

From Stdlib Require Import Floats.
From Stdlib Require Import Reals Lra Lia String Ascii Bool Arith.

Open Scope R_scope.

(** ** Python primitives *)

Module Py.

(** The exceptions the arithmetic of the sources can raise. *)
Inductive exn : Set :=
| ValueError          (* "math domain error" *)
| ZeroDivisionError   (* "float division by zero" *)
| OverflowError.      (* "math range error" *)

Inductive result (A : Type) : Type :=
| Ok (a : A)
| Raise (e : exn).

Arguments Ok {A} a.
Arguments Raise {A} e.

Definition bind {A B : Type} (m : result A) (k : A -> result B) : result B :=
  match m with
  | Ok a => k a
  | Raise e => Raise e
  end.

(** [a / b] on floats. *)
Definition div (a b : R) : result R :=
  if Req_dec_T b 0 then Raise ZeroDivisionError else Ok (a / b).

(** [math.sqrt]. *)
Definition math_sqrt (x : R) : result R :=
  if Rlt_dec x 0 then Raise ValueError else Ok (sqrt x).

(** [math.log]. *)
Definition math_log (x : R) : result R :=
  if Rle_dec x 0 then Raise ValueError else Ok (ln x).

(** The builtin [max(a, b)]: the first argument unless the second is
    strictly greater. *)
Definition max (a b : R) : R := if Rlt_dec a b then b else a.

(** [str.lower] on the characters that matter for a comparison with an
    ASCII literal: the letters [A]..[Z] go to [a]..[z], every other byte is
    kept.  (No character outside ASCII lowers to one of [c], [a], [l].) *)
Definition lower_ascii (c : ascii) : ascii :=
  let n := nat_of_ascii c in
  if ((65 <=? n)%nat && (n <=? 90)%nat)%bool then ascii_of_nat (n + 32) else c.

Fixpoint lower (s : string) : string :=
  match s with
  | EmptyString => EmptyString
  | String c s' => String (lower_ascii c) (lower s')
  end.

End Py.

Import Py.

Notation "x <- m ;; k" := (Py.bind m (fun x => k))
  (at level 61, m at next level, right associativity).

(** ** [math.erf]

    The error function of the C library, [erf x = 2/sqrt(pi) * int_0^x
    exp(-t^2) dt], as a Riemann integral of the continuous integrand. *)

Definition gauss (t : R) : R := exp (- (t * t)).

Definition gauss_continuity : continuity gauss.
Proof.
  unfold gauss. apply derivable_continuous. reg.
Qed.

(** The integrand is integrable between any two bounds, in either order. *)
Definition gauss_integrable (a b : R) : Riemann_integrable gauss a b.
Proof.
  destruct (Rle_dec a b) as [Hab | Hab].
  - apply continuity_implies_RiemannInt; [exact Hab |].
    intros x _. apply gauss_continuity.
  - apply RiemannInt_P1.
    apply continuity_implies_RiemannInt; [lra |].
    intros x _. apply gauss_continuity.
Qed.

Definition gauss_int (x : R) : R := RiemannInt (gauss_integrable 0 x).

Definition erf (x : R) : R := 2 / sqrt PI * gauss_int x.

(** ** prices.py *)

Record Greeks : Set := mkGreeks {
  price : R;
  delta : R;
  gamma : R;
  vega : R;
  theta : R;
  rho : R
}.

(** [norm_cdf]: standard normal cumulative distribution. *)
Definition norm_cdf (x : R) : result R :=
  s <- math_sqrt 2 ;;
  y <- div x s ;;
  Ok (0.5 * (1 + erf y)).

(** [norm_pdf]: standard normal probability density. *)
Definition norm_pdf (x : R) : result R :=
  s <- math_sqrt (2 * PI) ;;
  div (exp (-0.5 * x * x)) s.

(** The four kind-dependent fields of the general case, in the order the
    source assigns them: price, delta, rho, theta. *)
Definition bs_call (S K T r sigma q sqrtT d1 d2 : R) : result (R * R * R * R) :=
  n1 <- norm_cdf d1 ;;
  n2 <- norm_cdf d2 ;;
  let price := S * exp (- q * T) * n1 - K * exp (- r * T) * n2 in
  n1 <- norm_cdf d1 ;;
  let delta := exp (- q * T) * n1 in
  n2 <- norm_cdf d2 ;;
  let rho := K * T * exp (- r * T) * n2 in
  p1 <- norm_pdf d1 ;;
  t1 <- div (- (S * sigma * exp (- q * T) * p1)) (2 * sqrtT) ;;
  n2 <- norm_cdf d2 ;;
  n1 <- norm_cdf d1 ;;
  let theta := t1 - r * K * exp (- r * T) * n2 + q * S * exp (- q * T) * n1 in
  Ok (price, delta, rho, theta).

Definition bs_put (S K T r sigma q sqrtT d1 d2 : R) : result (R * R * R * R) :=
  m2 <- norm_cdf (- d2) ;;
  m1 <- norm_cdf (- d1) ;;
  let price := K * exp (- r * T) * m2 - S * exp (- q * T) * m1 in
  n1 <- norm_cdf d1 ;;
  let delta := exp (- q * T) * (n1 - 1) in
  m2 <- norm_cdf (- d2) ;;
  let rho := - K * T * exp (- r * T) * m2 in
  p1 <- norm_pdf d1 ;;
  t1 <- div (- (S * sigma * exp (- q * T) * p1)) (2 * sqrtT) ;;
  m2 <- norm_cdf (- d2) ;;
  m1 <- norm_cdf (- d1) ;;
  let theta := t1 + r * K * exp (- r * T) * m2 - q * S * exp (- q * T) * m1 in
  Ok (price, delta, rho, theta).

(** [black_scholes(S, K, T, r, sigma, option_type="call", q=0.0)]. *)
Definition black_scholes (S K T r sigma : R) (option_type : string) (q : R)
  : result Greeks :=
  let option_type := lower option_type in
  if Rle_dec T 0 then
    let price :=
      if String.eqb option_type "call" then Py.max 0 (S - K)
      else Py.max 0 (K - S) in
    Ok (mkGreeks price 0 0 0 0 0)
  else if Rle_dec sigma 0 then
    let forward := S * exp (- q * T) in
    let discounted_payoff :=
      exp (- r * T) *
      (if String.eqb option_type "call" then Py.max 0 (forward - K)
       else Py.max 0 (K - forward)) in
    Ok (mkGreeks discounted_payoff 0 0 0 0 0)
  else
    sqrtT <- math_sqrt T ;;
    sk <- div S K ;;
    lg <- math_log sk ;;
    d1 <- div (lg + (r - q + 0.5 * sigma * sigma) * T) (sigma * sqrtT) ;;
    let d2 := d1 - sigma * sqrtT in
    pdrt <- (if String.eqb option_type "call"
             then bs_call S K T r sigma q sqrtT d1 d2
             else bs_put S K T r sigma q sqrtT d1 d2) ;;
    let '(price, delta, rho, theta) := pdrt in
    p1 <- norm_pdf d1 ;;
    gamma <- div (exp (- q * T) * p1) (S * sigma * sqrtT) ;;
    p1 <- norm_pdf d1 ;;
    let vega := S * exp (- q * T) * p1 * sqrtT in
    Ok (mkGreeks price delta gamma vega theta rho).

(** ** ironCondor.py *)

Record CondorStrikes : Set := mkStrikes {
  long_put : R;
  short_put : R;
  short_call : R;
  long_call : R
}.

(** [iron_condor(S, sigma, T, r=0.0, width=5.0)]. *)
Definition iron_condor (S sigma T r width : R) : result CondorStrikes :=
  sq <- math_sqrt T ;;
  let move := S * sigma * sq in
  let short_put := S - move in
  let long_put := short_put - width in
  let short_call := S + move in
  let long_call := short_call + width in
  Ok (mkStrikes long_put short_put short_call long_call).

(** [iron_condor_payoff(S_T, strikes, credit)]; [strikes] is the dictionary
    [iron_condor] returns, with its four keys. *)
Definition iron_condor_payoff (S_T : R) (strikes : CondorStrikes) (credit : R) : R :=
  let lp := long_put strikes in
  let sp := short_put strikes in
  let sc := short_call strikes in
  let lc := long_call strikes in
  let payoff := credit in
  let payoff := payoff - Py.max 0 (sp - S_T) in
  let payoff := payoff + Py.max 0 (lp - S_T) in
  let payoff := payoff - Py.max 0 (S_T - sc) in
  let payoff := payoff + Py.max 0 (S_T - lc) in
  payoff.

(** ** The overflow of [math.exp]

    [math.exp] raises [OverflowError] when its result exceeds the largest
    finite double.  [Ovf] is the pricer with that exception kept: the same
    code as above, every [math.exp] call in evaluation order, still over the
    reals (underflow and rounding are not modelled). *)

Module Ovf.

(** The largest finite binary64 number, [(2 - 2^-52) * 2^1023]. *)
Definition DBL_MAX : R := (2 - / 2 ^ 52) * 2 ^ 1023.

(** [math.exp]. *)
Definition math_exp (x : R) : result R :=
  if Rlt_dec DBL_MAX (exp x) then Raise OverflowError else Ok (exp x).



Definition norm_pdf (x : R) : result R :=
  e <- math_exp (-0.5 * x * x) ;;
  s <- math_sqrt (2 * PI) ;;
  div e s.

Definition bs_call (S K T r sigma q sqrtT d1 d2 : R) : result (R * R * R * R) :=
  eq <- math_exp (- q * T) ;;
  n1 <- norm_cdf d1 ;;
  er <- math_exp (- r * T) ;;
  n2 <- norm_cdf d2 ;;
  let price := S * eq * n1 - K * er * n2 in
  eq <- math_exp (- q * T) ;;
  n1 <- norm_cdf d1 ;;
  let delta := eq * n1 in
  er <- math_exp (- r * T) ;;
  n2 <- norm_cdf d2 ;;
  let rho := K * T * er * n2 in
  eq <- math_exp (- q * T) ;;
  p1 <- norm_pdf d1 ;;
  t1 <- div (- (S * sigma * eq * p1)) (2 * sqrtT) ;;
  er <- math_exp (- r * T) ;;
  n2 <- norm_cdf d2 ;;
  eq <- math_exp (- q * T) ;;
  n1 <- norm_cdf d1 ;;
  let theta := t1 - r * K * er * n2 + q * S * eq * n1 in
  Ok (price, delta, rho, theta).

Definition bs_put (S K T r sigma q sqrtT d1 d2 : R) : result (R * R * R * R) :=
  er <- math_exp (- r * T) ;;
  m2 <- norm_cdf (- d2) ;;
  eq <- math_exp (- q * T) ;;
  m1 <- norm_cdf (- d1) ;;
  let price := K * er * m2 - S * eq * m1 in
  eq <- math_exp (- q * T) ;;
  n1 <- norm_cdf d1 ;;
  let delta := eq * (n1 - 1) in
  er <- math_exp (- r * T) ;;
  m2 <- norm_cdf (- d2) ;;
  let rho := - K * T * er * m2 in
  eq <- math_exp (- q * T) ;;
  p1 <- norm_pdf d1 ;;
  t1 <- div (- (S * sigma * eq * p1)) (2 * sqrtT) ;;
  er <- math_exp (- r * T) ;;
  m2 <- norm_cdf (- d2) ;;
  eq <- math_exp (- q * T) ;;
  m1 <- norm_cdf (- d1) ;;
  let theta := t1 + r * K * er * m2 - q * S * eq * m1 in
  Ok (price, delta, rho, theta).

Definition black_scholes (S K T r sigma : R) (option_type : string) (q : R)
  : result Greeks :=
  let option_type := lower option_type in
  if Rle_dec T 0 then
    let price :=
      if String.eqb option_type "call" then Py.max 0 (S - K)
      else Py.max 0 (K - S) in
    Ok (mkGreeks price 0 0 0 0 0)
  else if Rle_dec sigma 0 then
    eq <- math_exp (- q * T) ;;
    let forward := S * eq in
    er <- math_exp (- r * T) ;;
    let discounted_payoff :=
      er *
      (if String.eqb option_type "call" then Py.max 0 (forward - K)
       else Py.max 0 (K - forward)) in
    Ok (mkGreeks discounted_payoff 0 0 0 0 0)
  else
    sqrtT <- math_sqrt T ;;
    sk <- div S K ;;
    lg <- math_log sk ;;
    d1 <- div (lg + (r - q + 0.5 * sigma * sigma) * T) (sigma * sqrtT) ;;
    let d2 := d1 - sigma * sqrtT in
    pdrt <- (if String.eqb option_type "call"
             then bs_call S K T r sigma q sqrtT d1 d2
             else bs_put S K T r sigma q sqrtT d1 d2) ;;
    let '(price, delta, rho, theta) := pdrt in
    eq <- math_exp (- q * T) ;;
    p1 <- norm_pdf d1 ;;
    gamma <- div (eq * p1) (S * sigma * sqrtT) ;;
    eq <- math_exp (- q * T) ;;
    p1 <- norm_pdf d1 ;;
    let vega := S * eq * p1 * sqrtT in
    Ok (mkGreeks price delta gamma vega theta rho).

End Ovf.

(** ** ironCondor.py in binary64

    [iron_condor] and [iron_condor_payoff] use only [+], [-], [*],
    [math.sqrt] and comparisons, which IEEE 754 rounds correctly: on
    primitive floats the embedding is exact, rounding included. *)

Module B64.

Record CondorStrikes : Set := mkStrikes {
  long_put : float;
  short_put : float;
  short_call : float;
  long_call : float
}.

(** [math.sqrt]: a domain error below zero; [-0.0] and NaN are returned. *)
Definition math_sqrt (x : float) : result float :=
  if (x <? 0)%float then Raise ValueError else Ok (PrimFloat.sqrt x).

(** [max(0, b)]: [b] when it is greater than 0, and 0 otherwise, also for a
    NaN. *)
Definition max0 (b : float) : float :=
  if (0 <? b)%float then b else 0%float.

Definition iron_condor (S sigma T r width : float) : result CondorStrikes :=
  sq <- math_sqrt T ;;
  let move := (S * sigma * sq)%float in
  let short_put := (S - move)%float in
  let long_put := (short_put - width)%float in
  let short_call := (S + move)%float in
  let long_call := (short_call + width)%float in
  Ok (mkStrikes long_put short_put short_call long_call).

Definition iron_condor_payoff (S_T : float) (strikes : CondorStrikes)
  (credit : float) : float :=
  let lp := long_put strikes in
  let sp := short_put strikes in
  let sc := short_call strikes in
  let lc := long_call strikes in
  let payoff := credit in
  let payoff := (payoff - max0 (sp - S_T))%float in
  let payoff := (payoff + max0 (lp - S_T))%float in
  let payoff := (payoff - max0 (S_T - sc))%float in
  let payoff := (payoff + max0 (S_T - lc))%float in
  payoff.

End B64.

(** ** The closed forms of the specification

    [normalCdf], [normalPdf], [d1] and [d2] as the specification writes them;
    the theorems below compare the embedded code with them. *)

Definition normalCdf (x : R) : R := 0.5 * (1 + erf (x / sqrt 2)).

Definition normalPdf (x : R) : R := exp (- (x ^ 2) / 2) / sqrt (2 * PI).

Definition spec_d1 (S K T r sigma q : R) : R :=
  (ln (S / K) + (r - q + 0.5 * sigma ^ 2) * T) / (sigma * sqrt T).

Definition spec_d2 (S K T r sigma q : R) : R :=
  spec_d1 S K T r sigma q - sigma * sqrt T.

(** The six fields of the general case for a call and for a put. *)
Definition closed_call (S K T r sigma q : R) : Greeks :=
  let d1 := spec_d1 S K T r sigma q in
  let d2 := spec_d2 S K T r sigma q in
  {| price := S * exp (- (q * T)) * normalCdf d1 - K * exp (- (r * T)) * normalCdf d2;
     delta := exp (- (q * T)) * normalCdf d1;
     gamma := exp (- (q * T)) * normalPdf d1 / (S * sigma * sqrt T);
     vega := S * exp (- (q * T)) * normalPdf d1 * sqrt T;
     theta := - (S * sigma * exp (- (q * T)) * normalPdf d1) / (2 * sqrt T)
              - r * K * exp (- (r * T)) * normalCdf d2
              + q * S * exp (- (q * T)) * normalCdf d1;
     rho := K * T * exp (- (r * T)) * normalCdf d2 |}.

Definition closed_put (S K T r sigma q : R) : Greeks :=
  let d1 := spec_d1 S K T r sigma q in
  let d2 := spec_d2 S K T r sigma q in
  {| price := K * exp (- (r * T)) * normalCdf (- d2) - S * exp (- (q * T)) * normalCdf (- d1);
     delta := exp (- (q * T)) * (normalCdf d1 - 1);
     gamma := exp (- (q * T)) * normalPdf d1 / (S * sigma * sqrt T);
     vega := S * exp (- (q * T)) * normalPdf d1 * sqrt T;
     theta := - (S * sigma * exp (- (q * T)) * normalPdf d1) / (2 * sqrt T)
              + r * K * exp (- (r * T)) * normalCdf (- d2)
              - q * S * exp (- (q * T)) * normalCdf (- d1);
     rho := - K * T * exp (- (r * T)) * normalCdf (- d2) |}.

(** ** Auxiliary functions of the proofs

    [call_price] and [put_price] are the price fields of the closed forms as
    functions of the spot. *)


(** [wallis_prim k] is the primitive of [cos^k] that vanishes at 0, built by
    the reduction formula; its value at [PI/2] is the Wallis integral. *)
Fixpoint wallis_prim (k : nat) (x : R) : R :=
  match k with
  | O => x
  | S O => sin x
  | S (S j as k') =>
      cos x ^ k' * sin x / INR (S k') + INR k' / INR (S k') * wallis_prim j x
  end.

Definition wallis (k : nat) : R := wallis_prim k (PI / 2).

(** [rational_bound m] bounds the integrand of [erf] from above and
    [gauss_majorant m] is its primitive that vanishes at 0. *)
Definition rational_bound (m : nat) (x : R) : R :=
  (/ (1 + (x / sqrt (INR (S m))) ^ 2)) ^ S m.

Definition gauss_majorant (m : nat) (x : R) : R :=
  sqrt (INR (S m)) * wallis_prim (2 * m) (atan (x / sqrt (INR (S m)))).

(** The value a computation returned through [f], and 0 when it raised. *)
Definition get {A : Type} (f : A -> R) (m : result A) : R :=
  match m with
  | Ok a => f a
  | Raise _ => 0
  end.

(** ** Basic facts about the primitives *)

Lemma max_Rmax (a b : R) : Py.max a b = Rmax a b.
Proof.
  unfold Py.max, Rmax.
  destruct (Rlt_dec a b), (Rle_dec a b); lra.
Qed.

Lemma div_ok (a b : R) : b <> 0 -> div a b = Ok (a / b).
Proof.
  intros Hb. unfold div. destruct (Req_dec_T b 0); [contradiction | reflexivity].
Qed.


Lemma math_sqrt_ok (x : R) : 0 <= x -> math_sqrt x = Ok (sqrt x).
Proof.
  intros Hx. unfold math_sqrt. destruct (Rlt_dec x 0); [lra | reflexivity].
Qed.

Lemma math_sqrt_neg (x : R) : x < 0 -> math_sqrt x = Raise ValueError.
Proof.
  intros Hx. unfold math_sqrt. destruct (Rlt_dec x 0); [reflexivity | lra].
Qed.

Lemma math_log_ok (x : R) : 0 < x -> math_log x = Ok (ln x).
Proof.
  intros Hx. unfold math_log. destruct (Rle_dec x 0); [lra | reflexivity].
Qed.


Lemma sqrt2_neq_0 : sqrt 2 <> 0.
Proof. apply Rgt_not_eq, sqrt_lt_R0; lra. Qed.

Lemma sqrt_2PI_pos : 0 < sqrt (2 * PI).
Proof. apply sqrt_lt_R0. pose proof PI_RGT_0. lra. Qed.

(** [norm_cdf] and [norm_pdf] never raise and compute the closed forms. *)
Lemma norm_cdf_ok (x : R) : norm_cdf x = Ok (normalCdf x).
Proof.
  unfold norm_cdf, normalCdf.
  rewrite math_sqrt_ok by lra. cbn.
  rewrite (div_ok _ _ sqrt2_neq_0). reflexivity.
Qed.

Lemma norm_pdf_ok (x : R) : norm_pdf x = Ok (normalPdf x).
Proof.
  unfold norm_pdf, normalPdf.
  pose proof PI_RGT_0 as Hpi. pose proof sqrt_2PI_pos as Hs.
  rewrite math_sqrt_ok by lra. cbn.
  rewrite div_ok by lra.
  replace (-0.5 * x * x) with (- (x ^ 2) / 2) by lra.
  reflexivity.
Qed.

Lemma lower_call : lower "call" = "call"%string.
Proof. reflexivity. Qed.

Lemma lower_put : lower "put" = "put"%string.
Proof. reflexivity. Qed.

(** Two runs of the embedding: the option kind is compared case-insensitively,
    and a terminal price between the short strikes keeps the whole credit. *)
Example lower_upper_call : lower "CALL" = "call"%string.
Proof. reflexivity. Qed.

Example payoff_inside_short_strikes :
  iron_condor_payoff 100 (mkStrikes 89 94 106 111) 2 = 2.
Proof.
  unfold iron_condor_payoff, Py.max. cbn [long_put short_put short_call long_call].
  repeat match goal with
  | |- context [Rlt_dec ?a ?b] => destruct (Rlt_dec a b); try lra
  end.
Qed.

(** ** The general case of [black_scholes] *)

Lemma bs_call_ok S K T r sigma q sqrtT d1 d2 :
  sqrtT <> 0 ->
  bs_call S K T r sigma q sqrtT d1 d2 =
  Ok (S * exp (- q * T) * normalCdf d1 - K * exp (- r * T) * normalCdf d2,
      exp (- q * T) * normalCdf d1,
      K * T * exp (- r * T) * normalCdf d2,
      - (S * sigma * exp (- q * T) * normalPdf d1) / (2 * sqrtT)
        - r * K * exp (- r * T) * normalCdf d2
        + q * S * exp (- q * T) * normalCdf d1).
Proof.
  intros Hs. unfold bs_call.
  rewrite !norm_cdf_ok, norm_pdf_ok. cbn.
  rewrite div_ok by lra. reflexivity.
Qed.

Lemma bs_put_ok S K T r sigma q sqrtT d1 d2 :
  sqrtT <> 0 ->
  bs_put S K T r sigma q sqrtT d1 d2 =
  Ok (K * exp (- r * T) * normalCdf (- d2) - S * exp (- q * T) * normalCdf (- d1),
      exp (- q * T) * (normalCdf d1 - 1),
      - K * T * exp (- r * T) * normalCdf (- d2),
      - (S * sigma * exp (- q * T) * normalPdf d1) / (2 * sqrtT)
        + r * K * exp (- r * T) * normalCdf (- d2)
        - q * S * exp (- q * T) * normalCdf (- d1)).
Proof.
  intros Hs. unfold bs_put.
  rewrite !norm_cdf_ok, norm_pdf_ok. cbn.
  rewrite div_ok by lra. reflexivity.
Qed.

Lemma black_scholes_general S K T r sigma ot q :
  0 < T -> 0 < sigma -> K <> 0 -> 0 < S / K ->
  black_scholes S K T r sigma ot q =
  Ok (if String.eqb (lower ot) "call" then closed_call S K T r sigma q
      else closed_put S K T r sigma q).
Proof.
  intros HT Hsig HK HSK.
  assert (HsT : 0 < sqrt T) by (apply sqrt_lt_R0; exact HT).
  assert (HS : S <> 0).
  { intros ->. unfold Rdiv in HSK. rewrite Rmult_0_l in HSK. lra. }
  unfold black_scholes.
  destruct (Rle_dec T 0) as [? | _]; [lra |].
  destruct (Rle_dec sigma 0) as [? | _]; [lra |].
  rewrite math_sqrt_ok by lra. cbn [bind].
  rewrite div_ok by exact HK. cbn [bind].
  rewrite math_log_ok by exact HSK. cbn [bind].
  rewrite div_ok by (apply Rmult_integral_contrapositive_currified; lra). cbn [bind].
  assert (Hd1 : (ln (S / K) + (r - q + 0.5 * sigma * sigma) * T) / (sigma * sqrt T)
                = spec_d1 S K T r sigma q).
  { unfold spec_d1. do 2 f_equal. ring. }
  rewrite Hd1. fold (spec_d2 S K T r sigma q).
  replace (- q * T) with (- (q * T)) by ring.
  replace (- r * T) with (- (r * T)) by ring.
  destruct (String.eqb (lower ot) "call").
  - rewrite bs_call_ok by lra. cbn [bind].
    rewrite !norm_pdf_ok. cbn [bind].
    rewrite div_ok by (repeat apply Rmult_integral_contrapositive_currified; lra).
    cbn [bind].
    replace (- q * T) with (- (q * T)) by ring.
    replace (- r * T) with (- (r * T)) by ring.
    reflexivity.
  - rewrite bs_put_ok by lra. cbn [bind].
    rewrite !norm_pdf_ok. cbn [bind].
    rewrite div_ok by (repeat apply Rmult_integral_contrapositive_currified; lra).
    cbn [bind].
    replace (- q * T) with (- (q * T)) by ring.
    replace (- r * T) with (- (r * T)) by ring.
    reflexivity.
Qed.



(** ** Expiry and zero volatility *)

Lemma black_scholes_expired S K T r sigma ot q :
  T <= 0 ->
  black_scholes S K T r sigma ot q =
  Ok (mkGreeks (if String.eqb (lower ot) "call" then Rmax 0 (S - K) else Rmax 0 (K - S))
               0 0 0 0 0).
Proof.
  intros HT. unfold black_scholes.
  destruct (Rle_dec T 0) as [_ | ?]; [| lra].
  rewrite !max_Rmax. reflexivity.
Qed.


(** C2.  At [T = 0] the price is the undiscounted intrinsic value,
    [max(0, S-K)] for a call and [max(0, K-S)] for a put, and delta, gamma,
    vega, theta and rho are exactly 0, for every [S], [K], [r], [sigma], [q]. *)
Theorem price_at_expiry (S K r sigma q : R) :
  black_scholes S K 0 r sigma "call" q = Ok (mkGreeks (Rmax 0 (S - K)) 0 0 0 0 0) /\
  black_scholes S K 0 r sigma "put" q = Ok (mkGreeks (Rmax 0 (K - S)) 0 0 0 0 0).
Proof.
  split; rewrite black_scholes_expired by lra; reflexivity.
Qed.



(** ** The iron condor *)

Lemma iron_condor_ok S sigma T r width :
  0 <= T ->
  iron_condor S sigma T r width =
  Ok (mkStrikes (S - S * sigma * sqrt T - width) (S - S * sigma * sqrt T)
                (S + S * sigma * sqrt T) (S + S * sigma * sqrt T + width)).
Proof.
  intros HT. unfold iron_condor. rewrite math_sqrt_ok by exact HT. reflexivity.
Qed.

Lemma iron_condor_neg_T S sigma T r width :
  T < 0 -> iron_condor S sigma T r width = Raise ValueError.
Proof.
  intros HT. unfold iron_condor. rewrite math_sqrt_neg by exact HT. reflexivity.
Qed.





(** A negative spot, a negative volatility and a negative width all get
    strikes. *)
Lemma iron_condor_accepts_invalid :
  iron_condor (-1) 0 0 0 5 = Ok (mkStrikes (-6) (-1) (-1) 4) /\
  iron_condor 1 (-1) 1 0 5 = Ok (mkStrikes (-3) 2 0 5) /\
  iron_condor 1 0 0 0 (-5) = Ok (mkStrikes 6 1 1 (-4)).
Proof.
  repeat split; rewrite iron_condor_ok by lra;
    rewrite ?sqrt_0, ?sqrt_1; f_equal; f_equal; lra.
Qed.

(** C10.  The strikes [iron_condor] returns do not depend on the rate [r]. *)
Theorem iron_condor_rate_independent (S sigma T width r1 r2 : R) :
  iron_condor S sigma T r1 width = iron_condor S sigma T r2 width.
Proof. reflexivity. Qed.

(** ** Calculus of [erf] *)

Lemma gauss_int_0 : gauss_int 0 = 0.
Proof.
  unfold gauss_int. apply RiemannInt_P9.
Qed.

Lemma gauss_int_chasles (a x : R) :
  gauss_int x = gauss_int a + RiemannInt (gauss_integrable a x).
Proof.
  unfold gauss_int. symmetry. apply RiemannInt_P26.
Qed.

Lemma gauss_int_derivable_pt_lim (x : R) : derivable_pt_lim gauss_int x (gauss x).
Proof.
  assert (Hab : x - 1 <= x + 1) by lra.
  assert (C0 : forall y, x - 1 <= y <= x + 1 -> continuity_pt gauss y).
  { intros y _. apply gauss_continuity. }
  apply (derivable_pt_lim_locally_ext
           (fun y => gauss_int (x - 1) + primitive Hab (FTC_P1 Hab C0) y)
           gauss_int x (x - 1) (x + 1)); [lra | |].
  - intros z Hz. rewrite (gauss_int_chasles (x - 1) z). f_equal.
    unfold primitive.
    destruct (Rle_dec (x - 1) z) as [H1 | H1]; [| lra].
    destruct (Rle_dec z (x + 1)) as [H2 | H2]; [| lra].
    apply RiemannInt_P5.
  - replace (gauss x) with (0 + gauss x) by ring.
    apply derivable_pt_lim_plus.
    + apply derivable_pt_lim_const.
    + apply RiemannInt_P28. lra.
Qed.

Lemma erf_derivable_pt_lim (x : R) :
  derivable_pt_lim erf x (2 / sqrt PI * gauss x).
Proof.
  unfold erf.
  apply (derivable_pt_lim_scal gauss_int (2 / sqrt PI) x (gauss x)).
  apply gauss_int_derivable_pt_lim.
Qed.

Lemma erf_0 : erf 0 = 0.
Proof. unfold erf. rewrite gauss_int_0. ring. Qed.

(** Two consequences of the mean value theorem, for a function whose
    derivative is known on a segment. *)
Lemma deriv_nonneg_le (f f' : R -> R) (a b : R) :
  a <= b ->
  (forall c, a <= c <= b -> derivable_pt_lim f c (f' c)) ->
  (forall c, a <= c <= b -> 0 <= f' c) ->
  f a <= f b.
Proof.
  intros Hab Hd Hpos.
  destruct (Req_dec a b) as [-> | Hne]; [lra |].
  destruct (MVT_cor2 f f' a b) as (c & Hc & Hcab); [lra | exact Hd |].
  assert (0 <= f' c * (b - a)).
  { apply Rmult_le_pos; [apply Hpos |]; lra. }
  lra.
Qed.

Lemma deriv_zero_eq (f : R -> R) (a b : R) :
  (forall c, derivable_pt_lim f c 0) -> f a = f b.
Proof.
  intros Hd.
  assert (Hle : forall u v, u <= v -> f u = f v).
  { intros u v Huv. apply Rle_antisym.
    - apply (deriv_nonneg_le f (fun _ => 0) u v Huv); intros; [apply Hd | lra].
    - assert (- f u <= - f v); [| lra].
      apply (deriv_nonneg_le (fun x => - f x) (fun _ => 0) u v Huv); [| intros; lra].
      intros c _. replace 0 with (- 0) by ring.
      apply (derivable_pt_lim_opp f c 0), Hd. }
  destruct (Rle_dec a b); [apply Hle; assumption | symmetry; apply Hle; lra].
Qed.

Lemma gauss_even (t : R) : gauss (- t) = gauss t.
Proof. unfold gauss. f_equal. ring. Qed.

Lemma gauss_int_odd (x : R) : gauss_int (- x) = - gauss_int x.
Proof.
  assert (H : gauss_int x + gauss_int (- x) = gauss_int 0 + gauss_int (- 0)).
  { apply (deriv_zero_eq (fun y => gauss_int y + gauss_int (- y))).
    intros c. replace 0 with (gauss c + gauss (- c) * (- 1)) by (rewrite gauss_even; ring).
    apply derivable_pt_lim_plus.
    - apply gauss_int_derivable_pt_lim.
    - apply (derivable_pt_lim_comp (fun y => - y) gauss_int c (- 1) (gauss (- c))).
      + replace (- 1) with (- (1)) by ring.
        apply (derivable_pt_lim_opp id c 1), derivable_pt_lim_id.
      + apply gauss_int_derivable_pt_lim. }
  rewrite Ropp_0, gauss_int_0 in H. lra.
Qed.

Lemma erf_odd (x : R) : erf (- x) = - erf x.
Proof. unfold erf. rewrite gauss_int_odd. ring. Qed.

Lemma normalCdf_opp (x : R) : normalCdf (- x) = 1 - normalCdf x.
Proof.
  unfold normalCdf.
  replace (- x / sqrt 2) with (- (x / sqrt 2)) by (field; apply sqrt2_neq_0).
  rewrite erf_odd. lra.
Qed.



(** ** The derivative of the normal distribution function *)

Lemma sqrt_2PI_eq : sqrt (2 * PI) = sqrt 2 * sqrt PI.
Proof.
  apply sqrt_mult; [lra | left; apply PI_RGT_0].
Qed.

Lemma half_eq : 0.5 = / 2.
Proof. lra. Qed.

Lemma normalCdf_derivable_pt_lim (x : R) :
  derivable_pt_lim normalCdf x (normalPdf x).
Proof.
  unfold normalCdf, normalPdf.
  assert (H2 : 0 < sqrt 2) by (apply sqrt_lt_R0; lra).
  assert (Hpi : 0 < sqrt PI) by (apply sqrt_lt_R0, PI_RGT_0).
  assert (Hsq : sqrt 2 * sqrt 2 = 2) by (apply sqrt_sqrt; lra).
  replace (exp (- x ^ 2 / 2) / sqrt (2 * PI))
    with (0.5 * (0 + 2 / sqrt PI * gauss (x / sqrt 2) * (/ sqrt 2))).
  2:{ rewrite sqrt_2PI_eq. unfold gauss.
      replace (- (x / sqrt 2 * (x / sqrt 2))) with (- x ^ 2 / 2).
      - rewrite half_eq. field. lra.
      - transitivity (- (x ^ 2 / (sqrt 2 * sqrt 2))); [rewrite Hsq; lra | field; lra]. }
  apply (derivable_pt_lim_scal (fun y => 1 + erf (y / sqrt 2)) 0.5 x).
  apply (derivable_pt_lim_plus (fun _ => 1) (fun y => erf (y / sqrt 2))).
  - apply derivable_pt_lim_const.
  - apply (derivable_pt_lim_comp (fun y => y / sqrt 2) erf x).
    + replace (/ sqrt 2) with (1 / sqrt 2) by (unfold Rdiv; ring).
      apply (derivable_pt_lim_div_scal id x 1 (sqrt 2)).
      apply derivable_pt_lim_id.
    + apply erf_derivable_pt_lim.
Qed.

(** ** Wallis integrals *)

Lemma nat_ind_pair (P : nat -> Prop) :
  P O -> P 1%nat -> (forall n, P n -> P (S (S n))) -> forall n, P n.
Proof.
  intros H0 H1 HS.
  assert (H : forall n, P n /\ P (S n)).
  { induction n as [| n [IH1 IH2]]; split; auto. }
  intros n. apply H.
Qed.

Lemma sin_sqr (x : R) : sin x * sin x = 1 - cos x * cos x.
Proof.
  pose proof (sin2_cos2 x) as H. unfold Rsqr in H. lra.
Qed.

Lemma cos_pow_derivable_pt_lim (k : nat) (x : R) :
  derivable_pt_lim (fun y => cos y ^ k) x (INR k * cos x ^ pred k * - sin x).
Proof.
  apply (derivable_pt_lim_comp cos (fun y => y ^ k) x).
  - apply derivable_pt_lim_cos.
  - apply derivable_pt_lim_pow.
Qed.

Lemma wallis_prim_derivable_pt_lim (k : nat) (x : R) :
  derivable_pt_lim (wallis_prim k) x (cos x ^ k).
Proof.
  revert k. apply nat_ind_pair.
  - cbn [wallis_prim pow]. apply derivable_pt_lim_id.
  - cbn [wallis_prim pow]. rewrite Rmult_1_r. apply derivable_pt_lim_sin.
  - intros j IH. cbn [wallis_prim].
    assert (Hj : 0 < INR (S (S j))) by (apply lt_0_INR; lia).
    replace (cos x ^ S (S j))
      with ((INR (S j) * cos x ^ pred (S j) * - sin x * sin x
             + cos x ^ S j * cos x) / INR (S (S j))
            + INR (S j) / INR (S (S j)) * cos x ^ j).
    2:{ cbn [pred pow]. rewrite (S_INR (S j)).
        set (a := INR (S j)) in *. rewrite (S_INR (S j)) in Hj. fold a in Hj.
        transitivity ((a * cos x ^ j * - (sin x * sin x)
                       + cos x * cos x ^ j * cos x + a * cos x ^ j) / (a + 1));
          [field; lra |].
        rewrite sin_sqr. field. lra. }
    apply (derivable_pt_lim_plus
             (fun y => cos y ^ S j * sin y / INR (S (S j)))
             (fun y => INR (S j) / INR (S (S j)) * wallis_prim j y)).
    + apply (derivable_pt_lim_div_scal (fun y => cos y ^ S j * sin y) x).
      apply (derivable_pt_lim_mult (fun y => cos y ^ S j) sin).
      * apply cos_pow_derivable_pt_lim.
      * apply derivable_pt_lim_sin.
    + apply (derivable_pt_lim_scal (wallis_prim j) (INR (S j) / INR (S (S j))) x).
      exact IH.
Qed.

Lemma wallis_prim_0 (k : nat) : wallis_prim k 0 = 0.
Proof.
  revert k. apply nat_ind_pair.
  - reflexivity.
  - cbn. apply sin_0.
  - intros j IH. cbn [wallis_prim]. rewrite IH, sin_0. unfold Rdiv. ring.
Qed.

Lemma wallis_0 : wallis 0 = PI / 2.
Proof. reflexivity. Qed.

Lemma wallis_1 : wallis 1 = 1.
Proof. unfold wallis. cbn. apply sin_PI2. Qed.

Lemma wallis_SS (j : nat) : wallis (S (S j)) = INR (S j) / INR (S (S j)) * wallis j.
Proof.
  unfold wallis. cbn [wallis_prim]. rewrite cos_PI2.
  rewrite pow_ne_zero by lia. unfold Rdiv. ring.
Qed.

Lemma wallis_pos (k : nat) : 0 < wallis k.
Proof.
  revert k. apply nat_ind_pair.
  - rewrite wallis_0. pose proof PI_RGT_0. lra.
  - rewrite wallis_1. lra.
  - intros j IH. rewrite wallis_SS.
    apply Rmult_lt_0_compat; [| exact IH].
    apply Rdiv_lt_0_compat; apply lt_0_INR; lia.
Qed.

Lemma wallis_prod (k : nat) : INR (S k) * wallis k * wallis (S k) = PI / 2.
Proof.
  induction k as [| k IH].
  - rewrite wallis_0, wallis_1. cbn. ring.
  - rewrite wallis_SS.
    assert (Hk : 0 < INR (S (S k))) by (apply lt_0_INR; lia).
    rewrite <- IH. field. lra.
Qed.

Lemma cos_pow_nonneg (k : nat) (x : R) : 0 <= x <= PI / 2 -> 0 <= cos x ^ k.
Proof.
  intros Hx. apply pow_le. apply cos_ge_0; lra.
Qed.

Lemma wallis_prim_incr (k : nat) (a b : R) :
  0 <= a -> a <= b -> b <= PI / 2 -> wallis_prim k a <= wallis_prim k b.
Proof.
  intros Ha Hab Hb.
  apply (deriv_nonneg_le (wallis_prim k) (fun x => cos x ^ k) a b Hab).
  - intros c _. apply wallis_prim_derivable_pt_lim.
  - intros c Hc. apply cos_pow_nonneg. lra.
Qed.

Lemma wallis_decr (k : nat) : wallis (S k) <= wallis k.
Proof.
  assert (Hpi : 0 <= PI / 2) by (pose proof PI_RGT_0; lra).
  pose proof (deriv_nonneg_le
                (fun x => wallis_prim k x - wallis_prim (S k) x)
                (fun x => cos x ^ k - cos x ^ S k) 0 (PI / 2) Hpi) as H.
  cbv beta in H. rewrite !wallis_prim_0 in H. unfold wallis.
  assert (0 - 0 <= wallis_prim k (PI / 2) - wallis_prim (S k) (PI / 2)); [| lra].
  apply H.
  - intros c _.
    apply (derivable_pt_lim_minus (wallis_prim k) (wallis_prim (S k)));
      apply wallis_prim_derivable_pt_lim.
  - intros c Hc. cbn [pow].
    pose proof (cos_pow_nonneg k c Hc) as Hk.
    pose proof (COS_bound c) as [_ Hc1].
    assert (0 <= cos c ^ k * (1 - cos c)) by (apply Rmult_le_pos; lra).
    lra.
Qed.

Lemma wallis_sqr_bound (k : nat) :
  wallis (S k) * wallis (S k) <= PI / 2 / INR (S k).
Proof.
  assert (Hk : 0 < INR (S k)) by (apply lt_0_INR; lia).
  pose proof (wallis_prod k) as Hp.
  pose proof (wallis_pos (S k)) as H1.
  pose proof (wallis_decr k) as Hd.
  replace (PI / 2 / INR (S k)) with (wallis k * wallis (S k)).
  - apply Rmult_le_compat_r; lra.
  - rewrite <- Hp. field. lra.
Qed.

(** ** The Gaussian integral is at most [sqrt(PI)/2]

    [exp(-x^2) <= (1 + x^2/n)^(-n)], whose primitive is a Wallis primitive
    after the substitution [x = sqrt(n) * tan(theta)]. *)

Lemma exp_pow_INR (a : R) (n : nat) : exp a ^ n = exp (INR n * a).
Proof.
  induction n as [| n IH].
  - cbn. rewrite Rmult_0_l, exp_0. reflexivity.
  - rewrite S_INR. cbn [pow]. rewrite IH, <- exp_plus. f_equal. ring.
Qed.

Lemma sqrt_INR_S_pos (m : nat) : 0 < sqrt (INR (S m)).
Proof. apply sqrt_lt_R0, lt_0_INR. lia. Qed.

Lemma gauss_le_rational_bound (m : nat) (x : R) : gauss x <= rational_bound m x.
Proof.
  unfold gauss, rational_bound.
  pose proof (sqrt_INR_S_pos m) as Hs.
  assert (Hn : 0 < INR (S m)) by (apply lt_0_INR; lia).
  assert (Hss : sqrt (INR (S m)) * sqrt (INR (S m)) = INR (S m))
    by (apply sqrt_def; lra).
  set (u := x / sqrt (INR (S m))).
  assert (Hu : 0 <= u ^ 2) by apply pow2_ge_0.
  assert (Hx : x * x = INR (S m) * u ^ 2).
  { unfold u. rewrite <- Hss at 1. field. lra. }
  rewrite Hx, exp_Ropp, <- exp_pow_INR, pow_inv.
  apply Rinv_le_contravar.
  - apply pow_lt. lra.
  - apply pow_incr. split; [lra | apply exp_ineq1_le].
Qed.

Lemma cos_atan_sqr (u : R) : cos (atan u) ^ 2 = / (1 + u ^ 2).
Proof.
  rewrite cos_atan.
  assert (H : 0 < 1 + u²) by (pose proof (Rle_0_sqr u); lra).
  assert (Hs : 0 < sqrt (1 + u²)) by (apply sqrt_lt_R0; exact H).
  rewrite <- (Rsqr_pow2 u).
  transitivity (/ (sqrt (1 + u²) * sqrt (1 + u²))); [field; lra |].
  rewrite sqrt_def by lra. reflexivity.
Qed.

Lemma gauss_majorant_derivable_pt_lim (m : nat) (x : R) :
  derivable_pt_lim (gauss_majorant m) x (rational_bound m x).
Proof.
  unfold gauss_majorant, rational_bound.
  pose proof (sqrt_INR_S_pos m) as Hs.
  set (s := sqrt (INR (S m))) in *.
  replace ((/ (1 + (x / s) ^ 2)) ^ S m)
    with (s * (cos (atan (x / s)) ^ (2 * m) * (/ (1 + (x / s) ^ 2) * (1 / s)))).
  2:{ rewrite pow_mult, cos_atan_sqr.
      assert (0 < 1 + (x / s) ^ 2) by (pose proof (pow2_ge_0 (x / s)); lra).
      set (d := 1 + (x / s) ^ 2) in *.
      cbn [pow]. field. split; lra. }
  apply (derivable_pt_lim_scal
           (fun y => wallis_prim (2 * m) (atan (y / s))) s x).
  apply (derivable_pt_lim_comp (fun y => atan (y / s)) (wallis_prim (2 * m)) x).
  - apply (derivable_pt_lim_comp (fun y => y / s) atan x).
    + apply (derivable_pt_lim_div_scal id x 1 s), derivable_pt_lim_id.
    + apply derivable_pt_lim_atan.
  - apply wallis_prim_derivable_pt_lim.
Qed.

Lemma gauss_nonneg (t : R) : 0 <= gauss t.
Proof. unfold gauss. left. apply exp_pos. Qed.

Lemma gauss_int_nonneg (x : R) : 0 <= x -> 0 <= gauss_int x.
Proof.
  intros Hx. rewrite <- gauss_int_0.
  apply (deriv_nonneg_le gauss_int gauss 0 x Hx).
  - intros c _. apply gauss_int_derivable_pt_lim.
  - intros c _. apply gauss_nonneg.
Qed.

Lemma gauss_majorant_0 (m : nat) : gauss_majorant m 0 = 0.
Proof.
  unfold gauss_majorant, Rdiv. rewrite Rmult_0_l, atan_0, wallis_prim_0. ring.
Qed.

Lemma gauss_int_le_majorant (m : nat) (x : R) :
  0 <= x -> gauss_int x <= gauss_majorant m x.
Proof.
  intros Hx.
  pose proof (deriv_nonneg_le
                (fun y => gauss_majorant m y - gauss_int y)
                (fun y => rational_bound m y - gauss y) 0 x Hx) as H.
  cbv beta in H. rewrite gauss_majorant_0, gauss_int_0 in H.
  assert (0 - 0 <= gauss_majorant m x - gauss_int x); [| lra].
  apply H.
  - intros c _.
    apply (derivable_pt_lim_minus (gauss_majorant m) gauss_int).
    + apply gauss_majorant_derivable_pt_lim.
    + apply gauss_int_derivable_pt_lim.
  - intros c _. pose proof (gauss_le_rational_bound m c). lra.
Qed.

Lemma gauss_majorant_le_wallis (m : nat) (x : R) :
  0 <= x -> gauss_majorant m x <= sqrt (INR (S m)) * wallis (2 * m).
Proof.
  intros Hx. unfold gauss_majorant, wallis.
  pose proof (sqrt_INR_S_pos m) as Hs.
  apply Rmult_le_compat_l; [lra |].
  assert (Hu : 0 <= x / sqrt (INR (S m))).
  { apply Rmult_le_pos; [exact Hx | left; apply Rinv_0_lt_compat; exact Hs]. }
  pose proof (atan_bound (x / sqrt (INR (S m)))) as [_ Hb].
  apply wallis_prim_incr; [| lra | lra].
  rewrite <- atan_0. destruct Hu as [Hu | <-]; [| lra].
  left. apply atan_increasing. exact Hu.
Qed.

Lemma gauss_int_sqr_le (m : nat) (x : R) :
  0 <= x ->
  gauss_int x * gauss_int x <= PI / 4 * (1 + / INR (S m)).
Proof.
  intros Hx.
  pose proof (gauss_int_nonneg x Hx) as H0.
  pose proof (gauss_int_le_majorant (S m) x Hx) as H1.
  pose proof (gauss_majorant_le_wallis (S m) x Hx) as H2.
  pose proof (sqrt_INR_S_pos (S m)) as Hs.
  assert (Hss : sqrt (INR (S (S m))) * sqrt (INR (S (S m))) = INR (S (S m))).
  { apply sqrt_def. left. apply lt_0_INR. lia. }
  replace (2 * S m)%nat with (S (2 * m + 1)) in H2 by lia.
  pose proof (wallis_sqr_bound (2 * m + 1)) as Hw.
  pose proof (wallis_pos (S (2 * m + 1))) as Hwp.
  set (w := wallis (S (2 * m + 1))) in *.
  set (s := sqrt (INR (S (S m)))) in *.
  set (g := gauss_int x) in *.
  assert (Hm : 0 < INR (S m)) by (apply lt_0_INR; lia).
  assert (Hk : INR (S (2 * m + 1)) = 2 * INR (S m)).
  { replace (S (2 * m + 1)) with (2 * S m)%nat by lia.
    rewrite mult_INR. cbn. ring. }
  rewrite Hk in Hw.
  assert (Hgs : g * g <= (s * w) * (s * w)).
  { apply Rmult_le_compat; lra. }
  replace (s * w * (s * w)) with (s * s * (w * w)) in Hgs by ring.
  rewrite Hss in Hgs.
  assert (Hn : INR (S (S m)) = INR (S m) + 1) by apply S_INR.
  rewrite Hn in Hgs.
  apply Rle_trans with (1 := Hgs).
  apply Rle_trans with ((INR (S m) + 1) * (PI / 2 / (2 * INR (S m)))).
  - apply Rmult_le_compat_l; lra.
  - right. field. lra.
Qed.

Lemma gauss_int_sqr_le_PI4 (x : R) : 0 <= x -> gauss_int x * gauss_int x <= PI / 4.
Proof.
  intros Hx.
  destruct (Rle_dec (gauss_int x * gauss_int x) (PI / 4)) as [H | H]; [exact H |].
  exfalso.
  set (g2 := gauss_int x * gauss_int x) in *.
  assert (Hgap : 0 < (g2 - PI / 4) / (PI / 4)).
  { apply Rdiv_lt_0_compat; [lra | pose proof PI_RGT_0; lra]. }
  destruct (archimed_cor1 _ Hgap) as (N & HN & HN0).
  destruct N as [| m]; [lia |].
  pose proof (gauss_int_sqr_le m x Hx) as Hb. fold g2 in Hb.
  pose proof PI_RGT_0 as Hpi.
  assert (PI / 4 * / INR (S m) < g2 - PI / 4); [| lra].
  apply Rmult_lt_compat_l with (r := PI / 4) in HN; [| lra].
  replace (PI / 4 * ((g2 - PI / 4) / (PI / 4))) with (g2 - PI / 4) in HN by (field; lra).
  exact HN.
Qed.

Lemma gauss_int_le (x : R) : 0 <= x -> gauss_int x <= sqrt PI / 2.
Proof.
  intros Hx.
  pose proof (gauss_int_sqr_le_PI4 x Hx) as H.
  assert (Hs : 0 < sqrt PI) by (apply sqrt_lt_R0, PI_RGT_0).
  assert (Hss : sqrt PI * sqrt PI = PI) by (apply sqrt_def; left; apply PI_RGT_0).
  apply Rsqr_incr_0_var; [| lra].
  unfold Rsqr. replace (sqrt PI / 2 * (sqrt PI / 2)) with (sqrt PI * sqrt PI / 4) by field.
  rewrite Hss. exact H.
Qed.

Lemma erf_bound (x : R) : -1 <= erf x <= 1.
Proof.
  assert (Hs : 0 < sqrt PI) by (apply sqrt_lt_R0, PI_RGT_0).
  assert (Hpos : forall y, 0 <= y -> 0 <= erf y <= 1).
  { intros y Hy. unfold erf.
    pose proof (gauss_int_nonneg y Hy) as H0.
    pose proof (gauss_int_le y Hy) as H1.
    split.
    - apply Rmult_le_pos; [| exact H0].
      apply Rmult_le_pos; [lra | left; apply Rinv_0_lt_compat; exact Hs].
    - replace 1 with (2 / sqrt PI * (sqrt PI / 2)) by (field; lra).
      apply Rmult_le_compat_l; [| exact H1].
      apply Rmult_le_pos; [lra | left; apply Rinv_0_lt_compat; exact Hs]. }
  destruct (Rle_dec 0 x) as [Hx | Hx].
  - destruct (Hpos x Hx). lra.
  - assert (H : 0 <= - x) by lra. destruct (Hpos (- x) H) as [H0 H1].
    rewrite erf_odd in H0, H1. lra.
Qed.


(** ** The price as a function of the spot *)

Section Spot.

Variables K T r sigma q : R.
Hypothesis HK : 0 < K.
Hypothesis HT : 0 < T.
Hypothesis Hsigma : 0 < sigma.

Lemma sqrtT_pos : 0 < sqrt T.
Proof. apply sqrt_lt_R0; exact HT. Qed.

Lemma vol_pos : 0 < sigma * sqrt T.
Proof. apply Rmult_lt_0_compat; [exact Hsigma | exact sqrtT_pos]. Qed.

Lemma spec_d1_derivable_pt_lim (S : R) :
  0 < S ->
  derivable_pt_lim (fun s => spec_d1 s K T r sigma q) S (/ (S * (sigma * sqrt T))).
Proof.
  intros HS. pose proof vol_pos as Hv. pose proof sqrtT_pos as HsT.
  unfold spec_d1.
  replace (/ (S * (sigma * sqrt T)))
    with ((/ (S / K) * (1 / K) + 0) / (sigma * sqrt T)) by (field; lra).
  apply (derivable_pt_lim_div_scal
           (fun s => ln (s / K) + (r - q + 0.5 * sigma ^ 2) * T) S).
  apply (derivable_pt_lim_plus (fun s => ln (s / K)) (fun _ => (r - q + 0.5 * sigma ^ 2) * T)).
  - apply (derivable_pt_lim_comp (fun s => s / K) ln S).
    + apply (derivable_pt_lim_div_scal id S 1 K), derivable_pt_lim_id.
    + apply derivable_pt_lim_ln. apply Rdiv_lt_0_compat; assumption.
  - apply derivable_pt_lim_const.
Qed.

Lemma spec_d2_derivable_pt_lim (S : R) :
  0 < S ->
  derivable_pt_lim (fun s => spec_d2 s K T r sigma q) S (/ (S * (sigma * sqrt T))).
Proof.
  intros HS. unfold spec_d2.
  replace (/ (S * (sigma * sqrt T))) with (/ (S * (sigma * sqrt T)) - 0) by ring.
  apply (derivable_pt_lim_minus (fun s => spec_d1 s K T r sigma q) (fun _ => sigma * sqrt T)).
  - apply spec_d1_derivable_pt_lim, HS.
  - apply derivable_pt_lim_const.
Qed.

(** The identity behind the delta of the model:
    [S e^{-qT} phi(d1) = K e^{-rT} phi(d2)]. *)
Lemma pdf_d1_d2 (S : R) :
  0 < S ->
  S * exp (- (q * T)) * normalPdf (spec_d1 S K T r sigma q) =
  K * exp (- (r * T)) * normalPdf (spec_d2 S K T r sigma q).
Proof.
  intros HS. pose proof vol_pos as Hv. pose proof sqrtT_pos as HsT.
  assert (HSK : 0 < S / K) by (apply Rdiv_lt_0_compat; assumption).
  assert (Hvv : sigma * sqrt T * (sigma * sqrt T) = sigma ^ 2 * T).
  { transitivity (sigma ^ 2 * (sqrt T * sqrt T)); [ring |].
    rewrite sqrt_sqrt by lra. reflexivity. }
  assert (Hd1 : spec_d1 S K T r sigma q * (sigma * sqrt T)
                = ln (S / K) + (r - q + 0.5 * sigma ^ 2) * T).
  { unfold spec_d1. field. lra. }
  unfold spec_d2, normalPdf.
  set (d1 := spec_d1 S K T r sigma q) in *.
  set (w := sigma * sqrt T) in *.
  replace S with (K * exp (ln (S / K))) at 1
    by (rewrite exp_ln by exact HSK; field; lra).
  unfold Rdiv. rewrite <- !Rmult_assoc. f_equal.
  rewrite !Rmult_assoc, <- !exp_plus. f_equal. f_equal.
  replace ((d1 - w) ^ 2) with (d1 ^ 2 - 2 * (d1 * w) + w * w) by ring.
  rewrite Hd1, Hvv. lra.
Qed.







End Spot.

(** ** More on [norm_cdf] and [norm_pdf] *)










(** The density [norm_pdf] is the derivative of the distribution function
    [norm_cdf]. *)
Theorem norm_cdf_derivative (x : R) :
  derivable_pt_lim (fun y => get id (norm_cdf y)) x (get id (norm_pdf x)).
Proof.
  rewrite norm_pdf_ok. cbn [get id].
  apply (derivable_pt_lim_ext normalCdf).
  - intros z. rewrite norm_cdf_ok. reflexivity.
  - apply normalCdf_derivable_pt_lim.
Qed.

(** ** More on [black_scholes] *)

(** The option kind only matters through its lower-case form being ["call"]:
    a kind that lowers to ["call"] is priced as a call, whatever its case,
    and every other string is priced as a put. *)
Theorem black_scholes_kind (S K T r sigma : R) (ot : string) (q : R) :
  black_scholes S K T r sigma ot q =
  black_scholes S K T r sigma
    (if String.eqb (lower ot) "call" then "call" else "put") q.
Proof.
  unfold black_scholes.
  destruct (String.eqb (lower ot) "call") eqn:E; reflexivity.
Qed.

(** Any [T <= 0], also a negative one, is priced as expiry: Greeks are
    returned, they do not depend on [T], [r], [sigma] or [q], the price is not
    negative and the other five fields are 0. *)
Theorem black_scholes_past_expiry (S K T r sigma : R) (ot : string) (q : R) :
  T <= 0 ->
  exists p,
    black_scholes S K T r sigma ot q = Ok (mkGreeks p 0 0 0 0 0) /\
    black_scholes S K 0 0 0 ot 0 = Ok (mkGreeks p 0 0 0 0 0) /\
    0 <= p.
Proof.
  intros HT. rewrite !black_scholes_expired by lra.
  eexists. split; [reflexivity | split; [reflexivity |]].
  destruct (String.eqb (lower ot) "call"); apply Rmax_l.
Qed.

Lemma black_scholes_past_expiry_witness :
  exists p,
    black_scholes 3 1 (-1) 2 5 "call" 7 = Ok (mkGreeks p 0 0 0 0 0) /\
    black_scholes 3 1 0 0 0 "call" 0 = Ok (mkGreeks p 0 0 0 0 0) /\
    0 <= p.
Proof. apply (black_scholes_past_expiry 3 1 (-1) 2 5 "call" 7). lra. Defined.




(** ** The Greeks of the general case *)





(** ** Differentiation rules in pointwise form *)

Section Rules.

Variables (f g : R -> R) (x l1 l2 : R).
Hypothesis Hf : derivable_pt_lim f x l1.
Hypothesis Hg : derivable_pt_lim g x l2.

Lemma D_plus : derivable_pt_lim (fun y => f y + g y) x (l1 + l2).
Proof. exact (derivable_pt_lim_plus f g x l1 l2 Hf Hg). Qed.

Lemma D_minus : derivable_pt_lim (fun y => f y - g y) x (l1 - l2).
Proof. exact (derivable_pt_lim_minus f g x l1 l2 Hf Hg). Qed.

Lemma D_mult : derivable_pt_lim (fun y => f y * g y) x (l1 * g x + f x * l2).
Proof. exact (derivable_pt_lim_mult f g x l1 l2 Hf Hg). Qed.

Lemma D_opp : derivable_pt_lim (fun y => - f y) x (- l1).
Proof. exact (derivable_pt_lim_opp f x l1 Hf). Qed.

Lemma D_div :
  g x <> 0 ->
  derivable_pt_lim (fun y => f y / g y) x ((l1 * g x - l2 * f x) / Rsqr (g x)).
Proof. intros H. exact (derivable_pt_lim_div f g x l1 l2 Hf Hg H). Qed.

Lemma D_exp : derivable_pt_lim (fun y => exp (f y)) x (exp (f x) * l1).
Proof.
  exact (derivable_pt_lim_comp f exp x l1 (exp (f x)) Hf (derivable_pt_lim_exp (f x))).
Qed.

Lemma D_ln : 0 < f x -> derivable_pt_lim (fun y => ln (f y)) x (/ f x * l1).
Proof.
  intros H.
  exact (derivable_pt_lim_comp f ln x l1 (/ f x) Hf (derivable_pt_lim_ln (f x) H)).
Qed.

Lemma D_sqrt :
  0 < f x -> derivable_pt_lim (fun y => sqrt (f y)) x (/ (2 * sqrt (f x)) * l1).
Proof.
  intros H.
  exact (derivable_pt_lim_comp f sqrt x l1 _ Hf (derivable_pt_lim_sqrt (f x) H)).
Qed.

Lemma D_pow (n : nat) :
  derivable_pt_lim (fun y => f y ^ n) x (INR n * f x ^ pred n * l1).
Proof.
  exact (derivable_pt_lim_comp f (fun y => y ^ n) x l1 _ Hf
           (derivable_pt_lim_pow (f x) n)).
Qed.

Lemma D_normalCdf :
  derivable_pt_lim (fun y => normalCdf (f y)) x (normalPdf (f x) * l1).
Proof.
  exact (derivable_pt_lim_comp f normalCdf x l1 _ Hf
           (normalCdf_derivable_pt_lim (f x))).
Qed.

Lemma D_eq (l : R) : l1 = l -> derivable_pt_lim f x l.
Proof. intros <-. exact Hf. Qed.

End Rules.

Lemma D_const (c x : R) : derivable_pt_lim (fun _ => c) x 0.
Proof. apply derivable_pt_lim_const. Qed.

Lemma D_id (x : R) : derivable_pt_lim (fun y => y) x 1.
Proof. apply derivable_pt_lim_id. Qed.

(** [derive] differentiates an expression built from the rules above and
    leaves the side conditions of [/], [ln] and [sqrt]. *)
Ltac derive :=
  lazymatch goal with
  | |- derivable_pt_lim _ _ _ =>
      first
        [ apply D_const
        | apply D_id
        | eapply D_plus; [derive | derive]
        | eapply D_minus; [derive | derive]
        | eapply D_mult; [derive | derive]
        | eapply D_opp; derive
        | eapply D_div; [derive | derive | cbv beta]
        | eapply D_exp; derive
        | eapply D_ln; [derive | cbv beta]
        | eapply D_sqrt; [derive | cbv beta]
        | eapply D_pow; derive
        | eapply D_normalCdf; derive ]
  end.

(** ** The Greeks are the partial derivatives of the price *)

Lemma normalPdf_even (x : R) : normalPdf (- x) = normalPdf x.
Proof.
  unfold normalPdf. replace ((- x) ^ 2) with (x ^ 2) by ring. reflexivity.
Qed.

(** The derivative of [a * N(d1) - b * N(d2)] along any parameter, when
    [a * phi(d1) = b * phi(d2)] at the point. *)
Lemma bs_form_derivable_pt_lim (a b d1 d2 : R -> R) (x a' b' D1 D2 : R) :
  derivable_pt_lim a x a' ->
  derivable_pt_lim b x b' ->
  derivable_pt_lim d1 x D1 ->
  derivable_pt_lim d2 x D2 ->
  a x * normalPdf (d1 x) = b x * normalPdf (d2 x) ->
  derivable_pt_lim (fun y => a y * normalCdf (d1 y) - b y * normalCdf (d2 y)) x
    (a' * normalCdf (d1 x) - b' * normalCdf (d2 x)
     + a x * normalPdf (d1 x) * (D1 - D2)).
Proof.
  intros Ha Hb Hd1 Hd2 E.
  eapply D_eq.
  - eapply D_minus; (eapply D_mult; [| eapply D_normalCdf]); eassumption.
  - replace (b x * (normalPdf (d2 x) * D2)) with (a x * normalPdf (d1 x) * D2)
      by (rewrite E; ring).
    ring.
Qed.

Section Partials.

Variables S K T r sigma q : R.
Hypothesis HS : 0 < S.
Hypothesis HK : 0 < K.
Hypothesis HT : 0 < T.
Hypothesis Hsigma : 0 < sigma.

Let d1 := spec_d1 S K T r sigma q.
Let d2 := spec_d2 S K T r sigma q.

Lemma pdf_identity :
  S * exp (- (q * T)) * normalPdf d1 = K * exp (- (r * T)) * normalPdf d2.
Proof. apply pdf_d1_d2; assumption. Qed.

Lemma pdf_identity_put :
  K * exp (- (r * T)) * normalPdf (- d2) = S * exp (- (q * T)) * normalPdf (- d1).
Proof. rewrite !normalPdf_even. symmetry. apply pdf_identity. Qed.

(** [d1] and [d2] along the volatility, the rate and the time. *)
Lemma d1_d2_along_sigma :
  exists D,
    derivable_pt_lim (fun s => spec_d1 S K T r s q) sigma D /\
    derivable_pt_lim (fun s => spec_d2 S K T r s q) sigma (D - sqrt T).
Proof.
  assert (HsT : 0 < sqrt T) by (apply sqrt_lt_R0; exact HT).
  assert (Hv : sigma * sqrt T <> 0) by (apply Rgt_not_eq, Rmult_lt_0_compat; lra).
  assert (H1 : exists D, derivable_pt_lim (fun s => spec_d1 S K T r s q) sigma D).
  { eexists. unfold spec_d1. derive. exact Hv. }
  destruct H1 as [D HD]. exists D. split; [exact HD |].
  unfold spec_d2. eapply D_eq; [eapply D_minus; [exact HD | derive] |].
  cbv beta. ring.
Qed.

Lemma d1_d2_along_r :
  exists D,
    derivable_pt_lim (fun x => spec_d1 S K T x sigma q) r D /\
    derivable_pt_lim (fun x => spec_d2 S K T x sigma q) r D.
Proof.
  assert (H1 : exists D, derivable_pt_lim (fun x => spec_d1 S K T x sigma q) r D).
  { eexists. unfold spec_d1. derive. }
  destruct H1 as [D HD]. exists D. split; [exact HD |].
  unfold spec_d2. eapply D_eq; [eapply D_minus; [exact HD | derive] |].
  cbv beta. ring.
Qed.

Lemma d1_d2_along_T :
  exists D,
    derivable_pt_lim (fun t => spec_d1 S K t r sigma q) T D /\
    derivable_pt_lim (fun t => spec_d2 S K t r sigma q) T
      (D - sigma / (2 * sqrt T)).
Proof.
  assert (HsT : 0 < sqrt T) by (apply sqrt_lt_R0; exact HT).
  assert (Hv : sigma * sqrt T <> 0) by (apply Rgt_not_eq, Rmult_lt_0_compat; lra).
  assert (H1 : exists D, derivable_pt_lim (fun t => spec_d1 S K t r sigma q) T D).
  { eexists. unfold spec_d1. derive; [exact HT | exact Hv]. }
  destruct H1 as [D HD]. exists D. split; [exact HD |].
  unfold spec_d2. eapply D_eq; [eapply D_minus; [exact HD | derive; exact HT] |].
  cbv beta. field. lra.
Qed.

Lemma call_price_along_S :
  derivable_pt_lim (fun s => price (closed_call s K T r sigma q)) S
    (delta (closed_call S K T r sigma q)).
Proof.
  eapply D_eq.
  - eapply (bs_form_derivable_pt_lim
              (fun s => s * exp (- (q * T))) (fun _ => K * exp (- (r * T)))
              (fun s => spec_d1 s K T r sigma q) (fun s => spec_d2 s K T r sigma q) S).
    + derive.
    + derive.
    + apply spec_d1_derivable_pt_lim; assumption.
    + apply spec_d2_derivable_pt_lim; assumption.
    + apply pdf_identity.
  - cbv beta. cbn [delta closed_call]. ring.
Qed.

Lemma put_price_along_S :
  derivable_pt_lim (fun s => price (closed_put s K T r sigma q)) S
    (delta (closed_put S K T r sigma q)).
Proof.
  eapply D_eq.
  - eapply (bs_form_derivable_pt_lim
              (fun _ => K * exp (- (r * T))) (fun s => s * exp (- (q * T)))
              (fun s => - spec_d2 s K T r sigma q) (fun s => - spec_d1 s K T r sigma q) S).
    + derive.
    + derive.
    + eapply D_opp. apply spec_d2_derivable_pt_lim; assumption.
    + eapply D_opp. apply spec_d1_derivable_pt_lim; assumption.
    + apply pdf_identity_put.
  - cbv beta. cbn [delta closed_put]. rewrite !normalCdf_opp. ring.
Qed.

Lemma delta_along_S :
  derivable_pt_lim (fun s => delta (closed_call s K T r sigma q)) S
    (gamma (closed_call S K T r sigma q)) /\
  derivable_pt_lim (fun s => delta (closed_put s K T r sigma q)) S
    (gamma (closed_put S K T r sigma q)).
Proof.
  assert (HsT : 0 < sqrt T) by (apply sqrt_lt_R0; exact HT).
  pose proof (spec_d1_derivable_pt_lim K T r sigma q HK HT Hsigma S HS) as Hd.
  split.
  - eapply D_eq.
    + cbn [delta closed_call]. eapply D_mult; [derive | eapply D_normalCdf; exact Hd].
    + cbv beta. cbn [gamma closed_call]. field. lra.
  - eapply D_eq.
    + cbn [delta closed_put].
      eapply D_mult; [derive | eapply D_minus; [eapply D_normalCdf; exact Hd | derive]].
    + cbv beta. cbn [gamma closed_put]. field. lra.
Qed.

Lemma price_along_sigma :
  derivable_pt_lim (fun s => price (closed_call S K T r s q)) sigma
    (vega (closed_call S K T r sigma q)) /\
  derivable_pt_lim (fun s => price (closed_put S K T r s q)) sigma
    (vega (closed_put S K T r sigma q)).
Proof.
  destruct d1_d2_along_sigma as (D & H1 & H2).
  split.
  - eapply D_eq.
    + eapply (bs_form_derivable_pt_lim
                (fun _ => S * exp (- (q * T))) (fun _ => K * exp (- (r * T)))
                (fun s => spec_d1 S K T r s q) (fun s => spec_d2 S K T r s q) sigma).
      * derive.
      * derive.
      * exact H1.
      * exact H2.
      * apply pdf_identity.
    + cbv beta. cbn [vega closed_call]. ring.
  - eapply D_eq.
    + eapply (bs_form_derivable_pt_lim
                (fun _ => K * exp (- (r * T))) (fun _ => S * exp (- (q * T)))
                (fun s => - spec_d2 S K T r s q) (fun s => - spec_d1 S K T r s q) sigma).
      * derive.
      * derive.
      * eapply D_opp. exact H2.
      * eapply D_opp. exact H1.
      * apply pdf_identity_put.
    + cbv beta. cbn [vega closed_put]. fold d1 d2.
      rewrite pdf_identity_put, normalPdf_even. ring.
Qed.

Lemma price_along_r :
  derivable_pt_lim (fun x => price (closed_call S K T x sigma q)) r
    (rho (closed_call S K T r sigma q)) /\
  derivable_pt_lim (fun x => price (closed_put S K T x sigma q)) r
    (rho (closed_put S K T r sigma q)).
Proof.
  destruct d1_d2_along_r as (D & H1 & H2).
  split.
  - eapply D_eq.
    + eapply (bs_form_derivable_pt_lim
                (fun _ => S * exp (- (q * T))) (fun x => K * exp (- (x * T)))
                (fun x => spec_d1 S K T x sigma q) (fun x => spec_d2 S K T x sigma q) r).
      * derive.
      * derive.
      * exact H1.
      * exact H2.
      * apply pdf_identity.
    + cbv beta. cbn [rho closed_call]. ring.
  - eapply D_eq.
    + eapply (bs_form_derivable_pt_lim
                (fun x => K * exp (- (x * T))) (fun _ => S * exp (- (q * T)))
                (fun x => - spec_d2 S K T x sigma q) (fun x => - spec_d1 S K T x sigma q) r).
      * derive.
      * derive.
      * eapply D_opp. exact H2.
      * eapply D_opp. exact H1.
      * apply pdf_identity_put.
    + cbv beta. cbn [rho closed_put]. ring.
Qed.

Lemma price_along_T :
  derivable_pt_lim (fun t => price (closed_call S K t r sigma q)) T
    (- theta (closed_call S K T r sigma q)) /\
  derivable_pt_lim (fun t => price (closed_put S K t r sigma q)) T
    (- theta (closed_put S K T r sigma q)).
Proof.
  assert (HsT : 0 < sqrt T) by (apply sqrt_lt_R0; exact HT).
  destruct d1_d2_along_T as (D & H1 & H2).
  split.
  - eapply D_eq.
    + eapply (bs_form_derivable_pt_lim
                (fun t => S * exp (- (q * t))) (fun t => K * exp (- (r * t)))
                (fun t => spec_d1 S K t r sigma q) (fun t => spec_d2 S K t r sigma q) T).
      * derive.
      * derive.
      * exact H1.
      * exact H2.
      * apply pdf_identity.
    + cbv beta. cbn [theta closed_call]. field. lra.
  - eapply D_eq.
    + eapply (bs_form_derivable_pt_lim
                (fun t => K * exp (- (r * t))) (fun t => S * exp (- (q * t)))
                (fun t => - spec_d2 S K t r sigma q) (fun t => - spec_d1 S K t r sigma q) T).
      * derive.
      * derive.
      * eapply D_opp. exact H2.
      * eapply D_opp. exact H1.
      * apply pdf_identity_put.
    + cbv beta. cbn [theta closed_put]. fold d1 d2.
      rewrite pdf_identity_put, normalPdf_even. field. lra.
Qed.

End Partials.

(** ** The Greeks of the returned record against the returned price *)

Lemma get_call (f : Greeks -> R) (S K T r sigma q : R) :
  0 < S -> 0 < K -> 0 < T -> 0 < sigma ->
  get f (black_scholes S K T r sigma "call" q) = f (closed_call S K T r sigma q).
Proof.
  intros HS HK HT Hs.
  assert (HSK : 0 < S / K) by (apply Rdiv_lt_0_compat; assumption).
  rewrite black_scholes_general by lra. reflexivity.
Qed.

Lemma get_put (f : Greeks -> R) (S K T r sigma q : R) :
  0 < S -> 0 < K -> 0 < T -> 0 < sigma ->
  get f (black_scholes S K T r sigma "put" q) = f (closed_put S K T r sigma q).
Proof.
  intros HS HK HT Hs.
  assert (HSK : 0 < S / K) by (apply Rdiv_lt_0_compat; assumption).
  rewrite black_scholes_general by lra. reflexivity.
Qed.

(** The delta [black_scholes] returns is the derivative of the price it
    returns with respect to the spot, for the call and for the put. *)
Theorem delta_is_price_per_spot (S K T r sigma q : R) :
  0 < S -> 0 < K -> 0 < T -> 0 < sigma ->
  derivable_pt_lim (fun s => get price (black_scholes s K T r sigma "call" q)) S
    (get delta (black_scholes S K T r sigma "call" q)) /\
  derivable_pt_lim (fun s => get price (black_scholes s K T r sigma "put" q)) S
    (get delta (black_scholes S K T r sigma "put" q)).
Proof.
  intros HS HK HT Hs. rewrite get_call, get_put by assumption. split.
  - apply (derivable_pt_lim_locally_ext
             (fun s => price (closed_call s K T r sigma q)) _ S (S / 2) (S + 1)).
    + lra.
    + intros z Hz. symmetry. apply get_call; lra.
    + apply call_price_along_S; assumption.
  - apply (derivable_pt_lim_locally_ext
             (fun s => price (closed_put s K T r sigma q)) _ S (S / 2) (S + 1)).
    + lra.
    + intros z Hz. symmetry. apply get_put; lra.
    + apply put_price_along_S; assumption.
Qed.

Lemma delta_is_price_per_spot_witness :
  derivable_pt_lim (fun s => get price (black_scholes s 160 1 0 1 "call" 0)) 150
    (get delta (black_scholes 150 160 1 0 1 "call" 0)).
Proof. apply (delta_is_price_per_spot 150 160 1 0 1 0); lra. Defined.

(** The gamma [black_scholes] returns is the derivative of the delta it
    returns with respect to the spot. *)
Theorem gamma_is_delta_per_spot (S K T r sigma q : R) :
  0 < S -> 0 < K -> 0 < T -> 0 < sigma ->
  derivable_pt_lim (fun s => get delta (black_scholes s K T r sigma "call" q)) S
    (get gamma (black_scholes S K T r sigma "call" q)) /\
  derivable_pt_lim (fun s => get delta (black_scholes s K T r sigma "put" q)) S
    (get gamma (black_scholes S K T r sigma "put" q)).
Proof.
  intros HS HK HT Hs. rewrite get_call, get_put by assumption.
  destruct (delta_along_S S K T r sigma q HS HK HT Hs) as [Hc Hp]. split.
  - apply (derivable_pt_lim_locally_ext
             (fun s => delta (closed_call s K T r sigma q)) _ S (S / 2) (S + 1)).
    + lra.
    + intros z Hz. symmetry. apply get_call; lra.
    + exact Hc.
  - apply (derivable_pt_lim_locally_ext
             (fun s => delta (closed_put s K T r sigma q)) _ S (S / 2) (S + 1)).
    + lra.
    + intros z Hz. symmetry. apply get_put; lra.
    + exact Hp.
Qed.

Lemma gamma_is_delta_per_spot_witness :
  derivable_pt_lim (fun s => get delta (black_scholes s 160 1 0 1 "call" 0)) 150
    (get gamma (black_scholes 150 160 1 0 1 "call" 0)).
Proof. apply (gamma_is_delta_per_spot 150 160 1 0 1 0); lra. Defined.

(** The vega [black_scholes] returns is the derivative of the price with
    respect to the volatility, per unit of volatility. *)
Theorem vega_is_price_per_vol (S K T r sigma q : R) :
  0 < S -> 0 < K -> 0 < T -> 0 < sigma ->
  derivable_pt_lim (fun s => get price (black_scholes S K T r s "call" q)) sigma
    (get vega (black_scholes S K T r sigma "call" q)) /\
  derivable_pt_lim (fun s => get price (black_scholes S K T r s "put" q)) sigma
    (get vega (black_scholes S K T r sigma "put" q)).
Proof.
  intros HS HK HT Hs. rewrite get_call, get_put by assumption.
  destruct (price_along_sigma S K T r sigma q HS HK HT Hs) as [Hc Hp]. split.
  - apply (derivable_pt_lim_locally_ext
             (fun s => price (closed_call S K T r s q)) _ sigma (sigma / 2) (sigma + 1)).
    + lra.
    + intros z Hz. symmetry. apply get_call; lra.
    + exact Hc.
  - apply (derivable_pt_lim_locally_ext
             (fun s => price (closed_put S K T r s q)) _ sigma (sigma / 2) (sigma + 1)).
    + lra.
    + intros z Hz. symmetry. apply get_put; lra.
    + exact Hp.
Qed.

Lemma vega_is_price_per_vol_witness :
  derivable_pt_lim (fun s => get price (black_scholes 150 160 1 0 s "call" 0)) 1
    (get vega (black_scholes 150 160 1 0 1 "call" 0)).
Proof. apply (vega_is_price_per_vol 150 160 1 0 1 0); lra. Defined.

(** The rho [black_scholes] returns is the derivative of the price with
    respect to the rate. *)
Theorem rho_is_price_per_rate (S K T r sigma q : R) :
  0 < S -> 0 < K -> 0 < T -> 0 < sigma ->
  derivable_pt_lim (fun x => get price (black_scholes S K T x sigma "call" q)) r
    (get rho (black_scholes S K T r sigma "call" q)) /\
  derivable_pt_lim (fun x => get price (black_scholes S K T x sigma "put" q)) r
    (get rho (black_scholes S K T r sigma "put" q)).
Proof.
  intros HS HK HT Hs. rewrite get_call, get_put by assumption.
  destruct (price_along_r S K T r sigma q HS HK HT Hs) as [Hc Hp]. split.
  - apply (derivable_pt_lim_ext (fun x => price (closed_call S K T x sigma q))).
    + intros z. symmetry. apply get_call; lra.
    + exact Hc.
  - apply (derivable_pt_lim_ext (fun x => price (closed_put S K T x sigma q))).
    + intros z. symmetry. apply get_put; lra.
    + exact Hp.
Qed.

Lemma rho_is_price_per_rate_witness :
  derivable_pt_lim (fun x => get price (black_scholes 150 160 1 x 1 "call" 0)) 0
    (get rho (black_scholes 150 160 1 0 1 "call" 0)).
Proof. apply (rho_is_price_per_rate 150 160 1 0 1 0); lra. Defined.

(** The theta [black_scholes] returns is minus the derivative of the price
    with respect to the time to expiry, per year. *)
Theorem theta_is_price_decay (S K T r sigma q : R) :
  0 < S -> 0 < K -> 0 < T -> 0 < sigma ->
  derivable_pt_lim (fun t => get price (black_scholes S K t r sigma "call" q)) T
    (- get theta (black_scholes S K T r sigma "call" q)) /\
  derivable_pt_lim (fun t => get price (black_scholes S K t r sigma "put" q)) T
    (- get theta (black_scholes S K T r sigma "put" q)).
Proof.
  intros HS HK HT Hs. rewrite get_call, get_put by assumption.
  destruct (price_along_T S K T r sigma q HS HK HT Hs) as [Hc Hp]. split.
  - apply (derivable_pt_lim_locally_ext
             (fun t => price (closed_call S K t r sigma q)) _ T (T / 2) (T + 1)).
    + lra.
    + intros z Hz. symmetry. apply get_call; lra.
    + exact Hc.
  - apply (derivable_pt_lim_locally_ext
             (fun t => price (closed_put S K t r sigma q)) _ T (T / 2) (T + 1)).
    + lra.
    + intros z Hz. symmetry. apply get_put; lra.
    + exact Hp.
Qed.

Lemma theta_is_price_decay_witness :
  derivable_pt_lim (fun t => get price (black_scholes 150 160 t 0 1 "call" 0)) 1
    (- get theta (black_scholes 150 160 1 0 1 "call" 0)).
Proof. apply (theta_is_price_decay 150 160 1 0 1 0); lra. Defined.

(** ** The Gaussian integral reaches [sqrt(PI)/2]

    [exp(-t^2) >= (1 - t^2/n)^n] on [[0, sqrt n]]; with [t = sqrt(n) * sin
    theta] the right-hand side integrates to a Wallis integral. *)

Lemma cos_pow_le_exp (n : nat) (x : R) :
  cos x ^ (2 * n) <= exp (- (INR n * (sin x * sin x))).
Proof.
  rewrite pow_mult.
  replace (- (INR n * (sin x * sin x))) with (INR n * - (sin x * sin x)) by ring.
  rewrite <- exp_pow_INR.
  apply pow_incr. split.
  - apply pow2_ge_0.
  - replace (cos x ^ 2) with (1 + - (sin x * sin x)) by (rewrite sin_sqr; ring).
    apply exp_ineq1_le.
Qed.

Lemma gauss_int_sqrt_ge_wallis (n : nat) :
  sqrt (INR n) * wallis (S (2 * n)) <= gauss_int (sqrt (INR n)).
Proof.
  assert (Hpi : 0 <= PI / 2) by (pose proof PI_RGT_0; lra).
  assert (Hn : 0 <= INR n) by apply pos_INR.
  assert (Hs : 0 <= sqrt (INR n)) by apply sqrt_pos.
  assert (Hss : sqrt (INR n) * sqrt (INR n) = INR n) by (apply sqrt_def; exact Hn).
  set (s := sqrt (INR n)) in *.
  pose proof (deriv_nonneg_le
                (fun t => gauss_int (s * sin t) - s * wallis_prim (S (2 * n)) t)
                (fun t => gauss (s * sin t) * (s * cos t) - s * cos t ^ S (2 * n))
                0 (PI / 2) Hpi) as H.
  cbv beta in H.
  rewrite sin_0, sin_PI2, Rmult_0_r, Rmult_1_r, gauss_int_0, wallis_prim_0 in H.
  fold (wallis (S (2 * n))) in H.
  assert (0 - s * 0 <= gauss_int s - s * wallis (S (2 * n))); [| lra].
  apply H.
  - intros c _. eapply D_eq.
    + eapply D_minus.
      * apply (derivable_pt_lim_comp (fun t => s * sin t) gauss_int c).
        -- eapply D_mult; [derive | apply derivable_pt_lim_sin].
        -- apply gauss_int_derivable_pt_lim.
      * eapply D_mult; [derive | apply wallis_prim_derivable_pt_lim].
    + cbv beta. ring.
  - intros c Hc.
    assert (Hcos : 0 <= cos c) by (apply cos_ge_0; lra).
    pose proof (cos_pow_le_exp n c) as Hle.
    assert (Hg : gauss (s * sin c) = exp (- (INR n * (sin c * sin c)))).
    { unfold gauss. f_equal. rewrite <- Hss. ring. }
    rewrite Hg. cbn [pow].
    assert (0 <= s * cos c * (exp (- (INR n * (sin c * sin c))) - cos c ^ (2 * n))).
    { apply Rmult_le_pos; [apply Rmult_le_pos; assumption | lra]. }
    lra.
Qed.

Lemma wallis_sqr_lower (k : nat) : PI / 2 / INR (S k) <= wallis k * wallis k.
Proof.
  assert (Hk : 0 < INR (S k)) by (apply lt_0_INR; lia).
  pose proof (wallis_prod k) as Hp.
  pose proof (wallis_pos k) as H1.
  pose proof (wallis_decr k) as Hd.
  replace (PI / 2 / INR (S k)) with (wallis k * wallis (S k)).
  - apply Rmult_le_compat_l; lra.
  - rewrite <- Hp. field. lra.
Qed.

Lemma gauss_int_sqr_ge (n : nat) (x : R) :
  sqrt (INR n) <= x ->
  PI / 4 * (1 - / INR (S n)) <= gauss_int x * gauss_int x.
Proof.
  intros Hx.
  assert (Hn : 0 <= INR n) by apply pos_INR.
  assert (Hs : 0 <= sqrt (INR n)) by apply sqrt_pos.
  assert (Hss : sqrt (INR n) * sqrt (INR n) = INR n) by (apply sqrt_def; exact Hn).
  assert (Hn1 : 0 < INR (S n)) by (apply lt_0_INR; lia).
  pose proof (gauss_int_sqrt_ge_wallis n) as H1.
  pose proof (wallis_sqr_lower (S (2 * n))) as H2.
  pose proof (wallis_pos (S (2 * n))) as Hw.
  assert (Hmono : gauss_int (sqrt (INR n)) <= gauss_int x).
  { apply (deriv_nonneg_le gauss_int gauss _ _ Hx).
    - intros c _. apply gauss_int_derivable_pt_lim.
    - intros c _. apply gauss_nonneg. }
  assert (Hk : INR (S (S (2 * n))) = 2 * INR (S n)).
  { replace (S (S (2 * n))) with (2 * S n)%nat by lia. rewrite mult_INR. cbn. ring. }
  rewrite Hk in H2.
  set (w := wallis (S (2 * n))) in *. set (s := sqrt (INR n)) in *.
  assert (H3 : (s * w) * (s * w) <= gauss_int x * gauss_int x).
  { assert (0 <= s * w) by (apply Rmult_le_pos; lra).
    apply Rmult_le_compat; lra. }
  apply Rle_trans with (2 := H3).
  replace (s * w * (s * w)) with (s * s * (w * w)) by ring. rewrite Hss.
  apply Rle_trans with (INR n * (PI / 2 / (2 * INR (S n)))).
  - right. rewrite S_INR in *. field. lra.
  - apply Rmult_le_compat_l; lra.
Qed.

Lemma erf_tail (n : nat) (x : R) : sqrt (INR n) <= x -> 1 - / INR (S n) <= erf x.
Proof.
  intros Hx.
  assert (Hx0 : 0 <= x) by (pose proof (sqrt_pos (INR n)); lra).
  pose proof (gauss_int_sqr_ge n x Hx) as H.
  pose proof (gauss_int_nonneg x Hx0) as Hg0.
  pose proof (erf_bound x) as [_ He1].
  assert (Hn1 : 0 < INR (S n)) by (apply lt_0_INR; lia).
  assert (Hinv : 0 < / INR (S n)) by (apply Rinv_0_lt_compat; exact Hn1).
  assert (Hpi : 0 < PI) by apply PI_RGT_0.
  assert (Hs : 0 < sqrt PI) by (apply sqrt_lt_R0; exact Hpi).
  assert (Hss : sqrt PI * sqrt PI = PI) by (apply sqrt_def; lra).
  assert (He0 : 0 <= erf x).
  { unfold erf. apply Rmult_le_pos; [| exact Hg0].
    apply Rmult_le_pos; [lra | left; apply Rinv_0_lt_compat; exact Hs]. }
  assert (Hsq : 1 - / INR (S n) <= erf x * erf x).
  { unfold erf.
    replace (2 / sqrt PI * gauss_int x * (2 / sqrt PI * gauss_int x))
      with (4 / (sqrt PI * sqrt PI) * (gauss_int x * gauss_int x)) by (field; lra).
    rewrite Hss.
    apply Rmult_le_compat_l with (r := 4 / PI) in H.
    - replace (4 / PI * (PI / 4 * (1 - / INR (S n)))) with (1 - / INR (S n)) in H
        by (field; lra).
      exact H.
    - left. apply Rdiv_lt_0_compat; lra. }
  assert (erf x * erf x <= erf x * 1) by (apply Rmult_le_compat_l; lra).
  lra.
Qed.

(** ** The tails of the normal distribution and the sign of the price *)

Lemma normalCdf_tail (eps : R) :
  0 < eps -> exists M, forall x, x <= M -> normalCdf x < eps.
Proof.
  intros Heps.
  destruct (archimed_cor1 eps Heps) as (N & HN & HN0).
  destruct N as [| n]; [lia |].
  assert (H2 : 0 < sqrt 2) by (apply sqrt_lt_R0; lra).
  exists (- (sqrt (INR n) * sqrt 2)). intros x Hx.
  assert (Hy : sqrt (INR n) <= - x / sqrt 2).
  { apply Rmult_le_reg_r with (sqrt 2); [exact H2 |].
    replace (- x / sqrt 2 * sqrt 2) with (- x) by (field; lra). lra. }
  pose proof (erf_tail n _ Hy) as He.
  assert (Hn1 : 0 < / INR (S n)) by (apply Rinv_0_lt_compat, lt_0_INR; lia).
  unfold normalCdf.
  replace (x / sqrt 2) with (- (- x / sqrt 2)) by (field; lra).
  rewrite erf_odd. lra.
Qed.

Section Sign.

Variables K T r sigma q : R.
Hypothesis HK : 0 < K.
Hypothesis HT : 0 < T.
Hypothesis Hsigma : 0 < sigma.





End Sign.


(** ** Bounds, duality and monotonicity of the price *)

(** [norm_cdf] tends to 0 at minus infinity and to 1 at plus infinity. *)
Theorem norm_cdf_limits (eps : R) :
  0 < eps ->
  exists M, forall x,
    (x <= - M -> get id (norm_cdf x) < eps) /\
    (M <= x -> 1 - eps < get id (norm_cdf x)).
Proof.
  intros Heps. destruct (normalCdf_tail eps Heps) as [M0 HM].
  exists (- M0). intros x. rewrite norm_cdf_ok. cbv [get id]. split; intros Hx.
  - apply HM. lra.
  - assert (H : normalCdf (- x) < eps) by (apply HM; lra).
    rewrite normalCdf_opp in H. lra.
Qed.

Lemma norm_cdf_limits_witness :
  exists M, forall x,
    (x <= - M -> get id (norm_cdf x) < 1) /\
    (M <= x -> 1 - 1 < get id (norm_cdf x)).
Proof. apply (norm_cdf_limits 1). lra. Defined.













(** ** More on the iron condor *)
















(** ** The pricer with the overflow of [math.exp] *)































#[local] Set Warnings "-inexact-float".

(** ** The iron condor in binary64 *)



(** C8, amended.  [iron_condor] checks none of [S > 0], [sigma >= 0],
    [width > 0]: it raises [ValueError], from [math.sqrt], exactly when
    [T < 0], and for every other input it returns the four strikes. *)
Theorem iron_condor_outcome (S sigma T r width : R) :
  iron_condor S sigma T r width =
  if Rlt_dec T 0 then Raise ValueError
  else Ok (mkStrikes (S - S * sigma * sqrt T - width) (S - S * sigma * sqrt T)
                     (S + S * sigma * sqrt T) (S + S * sigma * sqrt T + width)).
Proof.
  destruct (Rlt_dec T 0) as [HT | HT].
  - apply iron_condor_neg_T, HT.
  - apply iron_condor_ok. lra.
Qed.
